(** * ParaText: the column-based chunk (src/colbased_chunk.hpp)

    A shallow embedding of [ParaText::ColBasedChunk], the per-column
    accumulator of the column-based CSV parser, together with the
    properties its specification states about it.

    Layout of the development:
    - [Text]      : what [std::to_string] produces for [long] and [float];
    - [Widening]  : the adaptive-width vector the chunk stores its data in;
    - the chunk itself, operation by operation, as state passing;
    - the theorems. *)

From Stdlib Require Import ssreflect ZArith Floats.SpecFloat.
From stdpp Require Import gmap strings list pretty.

Local Open Scope Z_scope.

(** ** Numbers as the C++ code sees them *)

Module Text.

(** A C++ [float] is an IEEE-754 binary32 value: 24 bits of precision,
    largest exponent 128.  [spec_float] is the Standard Library's
    model of such values ([S754_finite s m e] is [(-1)^s * m * 2^e]). *)
Definition prec : Z := 24.
Definition emax : Z := 128.

(** [(float) z] for a [long] [z]: round to the nearest binary32 value,
    ties to even. *)
Definition float_of_long (z : Z) : spec_float :=
  binary_normalize prec emax z 0 false.

(** [std::to_string(long)] is [sprintf "%ld"]: the decimal digits,
    preceded by a minus sign for a negative value. *)
Definition to_string_long (z : Z) : string := pretty z.

(** [num / den] rounded to the nearest integer, ties to even
    ([den] positive). *)
Definition round_half_even (num den : Z) : Z :=
  let q := num / den in
  match (2 * (num mod den)) ?= den with
  | Lt => q
  | Gt => q + 1
  | Eq => if Z.even q then q else q + 1
  end.

(** Left-pads the fractional digits with zeros to width six. *)
Definition pad6 (s : string) : string :=
  String.concat "" (replicate (6 - String.length s)%nat "0") +:+ s.

(** [n] is the magnitude scaled by [10^6]; prints it with the decimal
    point six digits from the right. *)
Definition fixed6 (neg : bool) (n : Z) : string :=
  (if neg then "-" else "") +:+ pretty (n / 1000000) +:+ "."
    +:+ pad6 (pretty (n mod 1000000)).

(** [std::to_string(float)] is [sprintf "%f"] of the value promoted to
    [double] (an exact promotion): fixed notation with exactly six
    digits after the point, the exact binary value correctly rounded.
    [spec_float] has a single NaN, so the sign the C library may print
    before "nan" is not modelled. *)
Definition to_string_float (f : spec_float) : string :=
  match f with
  | S754_zero s => fixed6 s 0
  | S754_infinity s => if s then "-inf" else "inf"
  | S754_nan => "nan"
  | S754_finite s m e =>
      fixed6 s (if 0 <=? e then Z.pos m * 2 ^ e * 1000000
                else round_half_even (Z.pos m * 1000000) (2 ^ (- e)))
  end.

(** The integer a float denotes, when it denotes one. *)
Definition float_integral (f : spec_float) : option Z :=
  match f with
  | S754_zero _ => Some 0
  | S754_finite s m e =>
      let sgn := if s then (-1) else 1 in
      if 0 <=? e then Some (sgn * (Z.pos m * 2 ^ e))
      else if Z.pos m mod 2 ^ (- e) =? 0 then Some (sgn * (Z.pos m / 2 ^ (- e)))
      else None
  | _ => None
  end.

End Text.

(** ** Errors *)

(** [logic_error] is what the chunk itself throws (the specification calls
    it InvalidState); [out_of_range] is the failure of an indexed read of
    an adaptive vector past its size. *)
Inductive exn : Type :=
| logic_error (what : string)
| out_of_range.

Inductive result (A : Type) : Type :=
| Ok (a : A)
| Err (e : exn).
Arguments Ok {A} a.
Arguments Err {A} e.

Definition result_map {A B : Type} (f : A → B) (r : result A) : result B :=
  match r with
  | Ok a => Ok (f a)
  | Err e => Err e
  end.

(** ** Type identifiers *)

(** The [std::type_index] values the chunk answers with: the candidate
    types of the numeric store and [std::string] (the candidates of the
    categorical store are never reported). *)
Inductive type_index : Type :=
| TI_int8 | TI_int16 | TI_int32 | TI_int64 | TI_float | TI_string.

Global Instance type_index_eq_dec : EqDecision type_index.
Proof. solve_decision. Defined.

(** Modelled from the spec: the enumeration [Semantics] is declared in
    parse_params.hpp, which is not part of the examined sources; these are
    the two enumerators the chunk returns. *)
Inductive Semantics : Type := NUMERIC | STRINGISH.

(** ** The adaptive-width vector *)

Module Widening.

(** Modelled from the spec: widening_vector.hpp is not part of the
    examined sources.  An adaptive vector is an append-only sequence held
    in the narrowest of a fixed ladder of candidate types able to hold
    every value appended so far.  [active] is the position of the active
    candidate in the ladder, [data] the values in insertion order.
    Promotion re-encodes losslessly, so the values themselves are kept. *)
Record t (A : Type) : Type := mk { active : nat; data : list A }.
Arguments mk {A} active data.
Arguments active {A} _.
Arguments data {A} _.

Section Vec.
Context {A : Type}.

(** [rank x]: position of the narrowest candidate that represents [x]
    exactly. *)
Variable rank : A → nat.

(** Created empty, active type the narrowest candidate. *)
Definition empty : t A := mk 0%nat [].

Definition size (v : t A) : nat := length (data v).

(** Modelled from the spec: [append] finds the narrowest candidate, from
    the active one upward, that holds the value; promotes if it is
    wider; then appends. *)
Definition push_back (x : A) (v : t A) : t A :=
  mk (Nat.max (active v) (rank x)) (data v ++ [x]).

(** Modelled from the spec: element count back to 0, active type back
    to the narrowest candidate. *)
Definition clear (v : t A) : t A := empty.

(** Modelled from the spec: compaction of the backing storage; the
    logical content is untouched. *)
Definition shrink_to_fit (v : t A) : t A := v.

(** Modelled from the spec: the stored value at [i]; an out-of-range
    failure when [i >= size]. *)
Definition get (v : t A) (i : nat) : result A :=
  match data v !! i with
  | Some x => Ok x
  | None => Err out_of_range
  end.
End Vec.

End Widening.

(** ** What the two stores hold *)

(** A value of the numeric store: the chunk appends either a [long]
    ([process_integer], and the zero of an empty field) or a [float]
    ([process_float]). *)
Inductive number : Type :=
| NInt (z : Z)
| NFloat (f : spec_float).

(** [number_data_.get<float>(i)]: the stored value converted to [float]. *)
Definition number_to_float (v : number) : spec_float :=
  match v with
  | NInt z => Text.float_of_long z
  | NFloat f => f
  end.

(** Ladder of the numeric store:
    [widening_vector_dynamic<uint8_t, int8_t, int16_t, int32_t, int64_t, float>],
    positions 0 to 4. *)
Definition number_ladder : list type_index :=
  [TI_int8; TI_int16; TI_int32; TI_int64; TI_float].

Definition rank_long (z : Z) : nat :=
  if (-128 <=? z) && (z <=? 127) then 0%nat
  else if (-32768 <=? z) && (z <=? 32767) then 1%nat
  else if (-2147483648 <=? z) && (z <=? 2147483647) then 2%nat
  else 3%nat.

(** Modelled from the spec: the narrowest candidate that represents the
    value exactly.  A [long] always fits a 64-bit integer; a [float] fits
    an integer candidate when it denotes an integer of that range, and the
    [float] candidate otherwise. *)
Definition number_rank (v : number) : nat :=
  match v with
  | NInt z => rank_long z
  | NFloat f =>
      match Text.float_integral f with
      | Some z =>
          if (- 2 ^ 63 <=? z) && (z <? 2 ^ 63) then rank_long z else 4%nat
      | None => 4%nat
      end
  end.

(** Ladder of the categorical store:
    [widening_vector_dynamic<uint8_t, uint8_t, uint16_t, uint32_t, uint64_t>],
    positions 0 to 3.  A code is the size of the dictionary at the time
    the text was first seen, a [size_t]; the cast to [long] and back
    leaves it unchanged. *)
Definition code_rank (n : nat) : nat :=
  let z := Z.of_nat n in
  if z <? 2 ^ 8 then 0%nat
  else if z <? 2 ^ 16 then 1%nat
  else if z <? 2 ^ 32 then 2%nat
  else 3%nat.

(** Position of a type identifier in the order narrow-to-wide, with
    [std::string] above every numeric candidate. *)
Definition type_rank (ti : type_index) : nat :=
  match ti with
  | TI_int8 => 0 | TI_int16 => 1 | TI_int32 => 2
  | TI_int64 => 3 | TI_float => 4 | TI_string => 5
  end%nat.

Definition type_of_rank (n : nat) : type_index :=
  match number_ladder !! n with
  | Some ti => ti
  | None => TI_string
  end.

(** Modelled from the spec: [type_identifier()] of the numeric store, the
    identifier of its active candidate. *)
Definition number_get_type_index (v : Widening.t number) : type_index :=
  type_of_rank (Nat.min (Widening.active v) 4).

(** Modelled from the spec: [common_type_identifier(other)] of the numeric
    store.  Numeric against numeric is the wider of the two candidates;
    anything against the string identifier is the string identifier. *)
Definition number_get_common_type_index
    (v : Widening.t number) (other : type_index) : type_index :=
  type_of_rank (Nat.max (type_rank (number_get_type_index v)) (type_rank other)).

(** ** The chunk *)

Record ColBasedChunk : Type := mkChunk {
  column_name_ : string;
  number_data_ : Widening.t number;
  cat_data_ : Widening.t nat;
  cat_ids_ : gmap string nat;
  cat_keys_ : list string
}.

(** [ColBasedChunk(column_name)]; [ColBasedChunk()] is [new_chunk ""]. *)
Definition new_chunk (column_name : string) : ColBasedChunk :=
  mkChunk column_name Widening.empty Widening.empty ∅ [].

Definition set_number_data (v : Widening.t number) (c : ColBasedChunk) :=
  mkChunk (column_name_ c) v (cat_data_ c) (cat_ids_ c) (cat_keys_ c).

Definition set_cat_data (v : Widening.t nat) (c : ColBasedChunk) :=
  mkChunk (column_name_ c) (number_data_ c) v (cat_ids_ c) (cat_keys_ c).

Definition number_size (c : ColBasedChunk) : nat := Widening.size (number_data_ c).
Definition cat_size (c : ColBasedChunk) : nat := Widening.size (cat_data_ c).

(** [get_string_id]: the code of [key], entering it in the dictionary
    with the next free code when it is new. *)
Definition get_string_id (key : string) (c : ColBasedChunk) : nat * ColBasedChunk :=
  match cat_ids_ c !! key with
  | Some id => (id, c)
  | None =>
      let id := base.size (cat_ids_ c) in
      (id, mkChunk (column_name_ c) (number_data_ c) (cat_data_ c)
             (<[key := id]> (cat_ids_ c)) (cat_keys_ c ++ [key]))
  end.

(** [cat_data_.push_back((long)get_string_id(key))]. *)
Definition push_string (key : string) (c : ColBasedChunk) : ColBasedChunk :=
  let '(id, c1) := get_string_id key c in
  set_cat_data (Widening.push_back code_rank id (cat_data_ c1)) c1.

(** [add_cat_data]. *)
Definition add_cat_data (data : string) (c : ColBasedChunk) : ColBasedChunk :=
  push_string data c.

(** [convert_to_string]: the loop visits the indices of the numeric
    store in order, reads each number as [float], prints it and pushes
    the code of the text; the body never writes to the numeric store, so
    the numbers visited are the ones stored on entry.  Afterwards the
    numeric store is cleared and compacted. *)
Definition convert_to_string (c : ColBasedChunk) : ColBasedChunk :=
  if (0 <? number_size c)%nat then
    let c1 :=
      foldl (λ acc v, push_string (Text.to_string_float (number_to_float v)) acc)
            c (Widening.data (number_data_ c)) in
    set_number_data (Widening.shrink_to_fit (Widening.clear (number_data_ c1))) c1
  else c.

(** [process_categorical(begin, end)]; [text] is the range [begin, end),
    and [begin == end] says that it is empty. *)
Definition process_categorical (text : string) (c : ColBasedChunk) : ColBasedChunk :=
  if (0 <? number_size c)%nat then
    if bool_decide (text = "") then
      set_number_data (Widening.push_back number_rank (NInt 0) (number_data_ c)) c
    else
      push_string text (convert_to_string c)
  else
    push_string text c.

(** [process_float]. *)
Definition process_float (val : spec_float) (c : ColBasedChunk) : ColBasedChunk :=
  if (0 <? cat_size c)%nat then
    process_categorical (Text.to_string_float val) c
  else
    set_number_data (Widening.push_back number_rank (NFloat val) (number_data_ c)) c.

(** [process_integer]. *)
Definition process_integer (val : Z) (c : ColBasedChunk) : ColBasedChunk :=
  if (0 <? cat_size c)%nat then
    process_categorical (Text.to_string_long val) c
  else
    set_number_data (Widening.push_back number_rank (NInt val) (number_data_ c)) c.

(** [get_semantics]. *)
Definition get_semantics (c : ColBasedChunk) : Semantics :=
  if (0 <? cat_size c)%nat then STRINGISH else NUMERIC.

(** [get_type_index]. *)
Definition get_type_index (c : ColBasedChunk) : type_index :=
  if (0 <? cat_size c)%nat then TI_string
  else number_get_type_index (number_data_ c).

(** [get_common_type_index]. *)
Definition get_common_type_index (c : ColBasedChunk) (other : type_index) : type_index :=
  if (0 <? cat_size c)%nat || bool_decide (other = TI_string) then TI_string
  else number_get_common_type_index (number_data_ c) other.

(** [insert_numeric<T>(oit)]: the values written to [oit[0..to_copy)]
    and the count returned; [cast] is the conversion [(T)] from [float]. *)
Definition insert_numeric {T : Type} (cast : spec_float → T) (c : ColBasedChunk)
    : result (list T * nat) :=
  if (0 <? cat_size c)%nat then Err (logic_error "expected numeric data")
  else
    Ok (map (λ v, cast (number_to_float v)) (Widening.data (number_data_ c)),
        number_size c).

(** [get<T, Numeric>(i)]: the overload for [Numeric = true] reads the
    numeric store, the one for [Numeric = false] the categorical store;
    [of_number] and [of_size_t] are the conversions to [T]. *)
Definition get {T : Type} (of_number : number → T) (of_size_t : nat → T)
    (Numeric : bool) (c : ColBasedChunk) (i : nat) : result T :=
  if Numeric then result_map of_number (Widening.get (number_data_ c) i)
  else result_map of_size_t (Widening.get (cat_data_ c) i).

(** [get_cat_keys]. *)
Definition get_cat_keys (c : ColBasedChunk) : list string := cat_keys_ c.

(** [size]. *)
Definition size (c : ColBasedChunk) : nat :=
  if (0 <? cat_size c)%nat then cat_size c else number_size c.

(** [clear]. *)
Definition clear (c : ColBasedChunk) : ColBasedChunk :=
  mkChunk (column_name_ c) (Widening.clear (number_data_ c))
          (Widening.clear (cat_data_ c)) ∅ [].

(** [get_string]. *)
Definition get_string (c : ColBasedChunk) (idx : nat) : result nat :=
  Widening.get (cat_data_ c) idx.

(** The text each categorical entry stands for: the code at each
    position looked up in the ordered key list. *)
Definition decoded (c : ColBasedChunk) : list (option string) :=
  map (λ id, get_cat_keys c !! id) (Widening.data (cat_data_ c)).

(** ** Calls, and the state they are made in *)

(** One call of the public mutating interface. *)
Inductive call : Type :=
| Call_process_float (val : spec_float)
| Call_process_integer (val : Z)
| Call_process_categorical (text : string)
| Call_add_cat_data (data : string)
| Call_convert_to_string
| Call_clear.

Definition run_call (k : call) (c : ColBasedChunk) : ColBasedChunk :=
  match k with
  | Call_process_float val => process_float val c
  | Call_process_integer val => process_integer val c
  | Call_process_categorical text => process_categorical text c
  | Call_add_cat_data data => add_cat_data data c
  | Call_convert_to_string => convert_to_string c
  | Call_clear => clear c
  end.

(** The calls of a list made one after the other, first to last. *)
Definition run (ks : list call) (c : ColBasedChunk) : ColBasedChunk :=
  foldl (λ acc k, run_call k acc) c ks.

(** One field as the tokenizer hands it over: the three [process_] entry
    points. *)
Inductive token : Type :=
| Float (val : spec_float)
| Integer (val : Z)
| Categorical (text : string).

Definition process (tk : token) (c : ColBasedChunk) : ColBasedChunk :=
  match tk with
  | Float val => process_float val c
  | Integer val => process_integer val c
  | Categorical text => process_categorical text c
  end.

(** The fields of a column fed in row order. *)
Definition process_all (tks : list token) (c : ColBasedChunk) : ColBasedChunk :=
  foldl (λ acc tk, process tk acc) c tks.

(** At most one of the two stores holds anything. *)
Definition mode_invariant (c : ColBasedChunk) : Prop :=
  number_size c = 0%nat ∨ cat_size c = 0%nat.

(** The states reached from a new chunk when [add_cat_data] is only
    called on a chunk whose numeric store is empty. *)
Inductive reachable_guarded : ColBasedChunk → Prop :=
| rg_new name : reachable_guarded (new_chunk name)
| rg_process_float val c :
    reachable_guarded c → reachable_guarded (process_float val c)
| rg_process_integer val c :
    reachable_guarded c → reachable_guarded (process_integer val c)
| rg_process_categorical text c :
    reachable_guarded c → reachable_guarded (process_categorical text c)
| rg_add_cat_data data c :
    reachable_guarded c → number_size c = 0%nat →
    reachable_guarded (add_cat_data data c)
| rg_convert_to_string c :
    reachable_guarded c → reachable_guarded (convert_to_string c)
| rg_clear c :
    reachable_guarded c → reachable_guarded (clear c).

(** The dictionary is consistent: the map and the key list are inverse
    to each other and have the same size. *)
Definition dict_wf (c : ColBasedChunk) : Prop :=
  base.size (cat_ids_ c) = length (cat_keys_ c) ∧
  ∀ key id, cat_ids_ c !! key = Some id ↔ cat_keys_ c !! id = Some key.

(** Every stored code is a code of the dictionary. *)
Definition codes_wf (c : ColBasedChunk) : Prop :=
  Forall (λ id, id < length (cat_keys_ c))%nat (Widening.data (cat_data_ c)).

Definition chunk_wf (c : ColBasedChunk) : Prop := dict_wf c ∧ codes_wf c.

(** Interning the texts of a list one after the other: the codes
    returned, and the chunk afterwards. *)
Fixpoint intern_all (texts : list string) (c : ColBasedChunk)
    : list nat * ColBasedChunk :=
  match texts with
  | [] => ([], c)
  | text :: rest =>
      let '(id, c1) := get_string_id text c in
      let '(ids, c2) := intern_all rest c1 in
      (id :: ids, c2)
  end.

(** The rendering [convert_to_string] gives a stored number. *)
Definition render (v : number) : string :=
  Text.to_string_float (number_to_float v).

(** ** A column described from its fields *)

(** The text a field stands for once the column is categorical. *)
Definition token_text (tk : token) : string :=
  match tk with
  | Float val => Text.to_string_float val
  | Integer val => Text.to_string_long val
  | Categorical text => text
  end.

(** The leading fields the numeric store takes, as the numbers stored
    for them, and the remaining fields, from the first one that makes the
    column categorical.  [started] says whether the numeric store already
    holds a number: only then is an empty text taken as the number 0. *)
Fixpoint numeric_run (started : bool) (tks : list token)
    : list number * list token :=
  match tks with
  | [] => ([], [])
  | Float val :: rest =>
      (NFloat val :: (numeric_run true rest).1, (numeric_run true rest).2)
  | Integer val :: rest =>
      (NInt val :: (numeric_run true rest).1, (numeric_run true rest).2)
  | Categorical text :: rest =>
      if started && bool_decide (text = "") then
        (NInt 0 :: (numeric_run true rest).1, (numeric_run true rest).2)
      else ([], tks)
  end.


(** ** Sample data *)

(** Sample values: the floats [1.0], [2.0], [0.0] and [2^-24]. *)
Definition f32_one : spec_float := S754_finite false 8388608 (-23).
Definition f32_two : spec_float := S754_finite false 8388608 (-22).
Definition f32_zero : spec_float := S754_zero false.
Definition f32_tiny : spec_float := S754_finite false 8388608 (-47).

(** The column of the specification's example: the integers 1 and 2. *)
Definition one_two : ColBasedChunk :=
  process_integer 2 (process_integer 1 (new_chunk "")).

(** * Properties *)

(** ** Interning *)

Section Interning.
Implicit Types (c : ColBasedChunk) (key text : string) (id : nat).

Lemma get_string_id_frame key c :
  column_name_ (get_string_id key c).2 = column_name_ c ∧
  number_data_ (get_string_id key c).2 = number_data_ c ∧
  cat_data_ (get_string_id key c).2 = cat_data_ c.
Proof. unfold get_string_id. by destruct (cat_ids_ c !! key). Qed.

Lemma get_string_id_keys key c :
  cat_keys_ (get_string_id key c).2 = cat_keys_ c ∨
  (cat_ids_ c !! key = None ∧
   (get_string_id key c).1 = base.size (cat_ids_ c) ∧
   cat_keys_ (get_string_id key c).2 = cat_keys_ c ++ [key]).
Proof. unfold get_string_id. destruct (cat_ids_ c !! key); auto. Qed.

Lemma get_string_id_prefix key c :
  cat_keys_ c `prefix_of` cat_keys_ (get_string_id key c).2.
Proof.
  destruct (get_string_id_keys key c) as [-> | (_ & _ & ->)]; [done |].
  by apply prefix_app_r.
Qed.

Lemma get_string_id_wf key c :
  dict_wf c → dict_wf (get_string_id key c).2.
Proof.
  intros [Hsz Hinv]. unfold get_string_id.
  destruct (cat_ids_ c !! key) as [id |] eqn:Hk; [done |].
  split; simpl.
  - rw map_size_insert_None // length_app /=. lia.
  - intros k i. rw Hsz. destruct (decide (k = key)) as [-> | Hne].
    + rw lookup_insert_eq. split.
      * intros [= <-]. by rw lookup_app_r // Nat.sub_diag.
      * intros Hi. f_equal. apply lookup_app_Some in Hi as [Hi | [Hge Hi]].
        -- apply Hinv in Hi. congruence.
        -- apply list_lookup_singleton_Some in Hi as [Hi _]. lia.
    + rw lookup_insert_ne // Hinv. split.
      * intros Hi. by apply lookup_app_l_Some.
      * intros Hi. apply lookup_app_Some in Hi as [Hi | [Hge Hi]]; [done |].
        apply list_lookup_singleton_Some in Hi as [_ Hi]. congruence.
Qed.

Lemma get_string_id_lookup key c :
  dict_wf c →
  cat_keys_ (get_string_id key c).2 !! (get_string_id key c).1 = Some key.
Proof.
  intros [Hsz Hinv]. unfold get_string_id.
  destruct (cat_ids_ c !! key) as [id |] eqn:Hk; simpl.
  - by apply Hinv.
  - by rw Hsz lookup_app_r // Nat.sub_diag.
Qed.

Lemma dict_wf_NoDup c : dict_wf c → NoDup (cat_keys_ c).
Proof.
  intros [_ Hinv]. apply NoDup_alt. intros i j key Hi Hj.
  apply Hinv in Hi, Hj. congruence.
Qed.

Lemma dict_wf_lookup_None key c :
  dict_wf c → cat_ids_ c !! key = None ↔ key ∉ cat_keys_ c.
Proof.
  intros [_ Hinv]. split.
  - intros Hk [i Hi]%list_elem_of_lookup. apply Hinv in Hi. congruence.
  - intros Hk. destruct (cat_ids_ c !! key) as [id |] eqn:E; [| done].
    exfalso. apply Hk, list_elem_of_lookup. exists id. by apply Hinv.
Qed.
End Interning.

Section InterningMore.
Implicit Types (c : ColBasedChunk) (key text : string) (id : nat).

Lemma dict_wf_new name : dict_wf (new_chunk name).
Proof. split; [done |]. intros key id. by rw lookup_empty lookup_nil. Qed.

Lemma get_string_id_elem key c k :
  dict_wf c →
  k ∈ cat_keys_ (get_string_id key c).2 ↔ k ∈ cat_keys_ c ∨ k = key.
Proof.
  intros Hwf. unfold get_string_id.
  destruct (cat_ids_ c !! key) as [id |] eqn:Hk; simpl.
  - split; [auto |]. intros [Hin | ->]; [done |].
    apply list_elem_of_lookup. exists id. by apply Hwf.
  - rw elem_of_app list_elem_of_singleton. tauto.
Qed.

Lemma intern_all_cons text rest c :
  intern_all (text :: rest) c =
    ((get_string_id text c).1 :: (intern_all rest (get_string_id text c).2).1,
     (intern_all rest (get_string_id text c).2).2).
Proof.
  simpl. destruct (get_string_id text c) as [id c1]; simpl.
  by destruct (intern_all rest c1).
Qed.

(** The number of distinct elements depends on the elements only. *)
Lemma distinct_length_ext (l k : list string) :
  (∀ x, x ∈ l ↔ x ∈ k) → length (remove_dups l) = length (remove_dups k).
Proof.
  intros Hlk. apply Permutation_length, NoDup_Permutation.
  - apply NoDup_remove_dups.
  - apply NoDup_remove_dups.
  - intros x. by rw !elem_of_remove_dups.
Qed.

Lemma distinct_length_NoDup (l : list string) :
  NoDup l → length (remove_dups l) = length l.
Proof.
  intros Hl. apply Permutation_length, NoDup_Permutation; [| done |].
  - apply NoDup_remove_dups.
  - intros x. by rw elem_of_remove_dups.
Qed.

(** What a run of internings does, from any consistent dictionary. *)
Lemma intern_all_spec texts c :
  dict_wf c →
  dict_wf (intern_all texts c).2 ∧
  length (intern_all texts c).1 = length texts ∧
  cat_keys_ c `prefix_of` cat_keys_ (intern_all texts c).2 ∧
  (∀ i text, texts !! i = Some text →
     ∃ id, (intern_all texts c).1 !! i = Some id ∧
           cat_keys_ (intern_all texts c).2 !! id = Some text) ∧
  (∀ key, key ∈ cat_keys_ (intern_all texts c).2 ↔
          key ∈ cat_keys_ c ∨ key ∈ texts) ∧
  (∀ i text, texts !! i = Some text → text ∉ cat_keys_ c →
     text ∉ take i texts →
     (intern_all texts c).1 !! i =
       Some (length (remove_dups (cat_keys_ c ++ take i texts)))).
Proof.
  revert c. induction texts as [| t rest IH]; intros c Hwf.
  { simpl. split_and!; try done.
    intros key. split; [auto |]. by intros [? | ?%elem_of_nil]. }
  rw intern_all_cons. simpl.
  pose proof (get_string_id_wf t c Hwf) as Hwf1.
  pose proof (get_string_id_prefix t c) as Hpre1.
  pose proof (get_string_id_lookup t c Hwf) as Hlk1.
  destruct (IH _ Hwf1) as (Hwf2 & Hlen & Hpre2 & Hdec & Helem & Hnew).
  split_and!.
  - done.
  - by rw Hlen.
  - by etrans.
  - intros [| i] text Hi; simpl in *.
    + injection Hi as <-. eexists. split; [done |].
      by eapply prefix_lookup_Some.
    + by apply Hdec.
  - intros key. rw Helem get_string_id_elem // elem_of_cons. tauto.
  - intros [| i] text Hi Hfresh Hnot; simpl in *.
    + injection Hi as <-. f_equal.
      rw app_nil_r distinct_length_NoDup; [by apply dict_wf_NoDup |].
      apply dict_wf_lookup_None in Hfresh; [| done].
      unfold get_string_id. rw Hfresh. simpl. apply Hwf.
    + apply not_elem_of_cons in Hnot as [Hne Hnot].
      rw (Hnew i text) //.
      { rw get_string_id_elem //. tauto. }
      f_equal. apply distinct_length_ext. intros x.
      rw !elem_of_app get_string_id_elem // elem_of_cons. tauto.
Qed.
End InterningMore.

(** ** Appending a categorical entry *)

Section PushString.
Implicit Types (c : ColBasedChunk) (key text : string) (id : nat).

Lemma push_string_unfold key c :
  push_string key c =
    set_cat_data
      (Widening.push_back code_rank (get_string_id key c).1 (cat_data_ c))
      (get_string_id key c).2.
Proof.
  unfold push_string.
  destruct (get_string_id_frame key c) as (_ & _ & Hcat).
  destruct (get_string_id key c) as [id c1]; simpl in *. by rw Hcat.
Qed.

Lemma push_string_number_data key c :
  number_data_ (push_string key c) = number_data_ c.
Proof. rw push_string_unfold /=. apply get_string_id_frame. Qed.

Lemma push_string_column_name key c :
  column_name_ (push_string key c) = column_name_ c.
Proof. rw push_string_unfold /=. apply get_string_id_frame. Qed.

Lemma push_string_cat_data key c :
  Widening.data (cat_data_ (push_string key c)) =
    Widening.data (cat_data_ c) ++ [(get_string_id key c).1].
Proof. by rw push_string_unfold. Qed.

Lemma push_string_cat_keys key c :
  cat_keys_ (push_string key c) = cat_keys_ (get_string_id key c).2.
Proof. by rw push_string_unfold. Qed.

Lemma push_string_cat_size key c :
  cat_size (push_string key c) = S (cat_size c).
Proof.
  unfold cat_size, Widening.size. rw push_string_cat_data length_app /=. lia.
Qed.

Lemma push_string_number_size key c :
  number_size (push_string key c) = number_size c.
Proof. unfold number_size. by rw push_string_number_data. Qed.

Lemma push_string_wf key c : chunk_wf c → chunk_wf (push_string key c).
Proof.
  intros [Hd Hc]. pose proof (get_string_id_lookup key c Hd) as Hlk.
  split.
  - rw push_string_unfold. by apply get_string_id_wf.
  - unfold codes_wf. rw push_string_cat_data push_string_cat_keys.
    apply Forall_app. split.
    + eapply Forall_impl; [exact Hc |]. simpl. intros id Hid.
      pose proof (prefix_length _ _ (get_string_id_prefix key c)). lia.
    + apply Forall_singleton. by eapply lookup_lt_Some.
Qed.

(** The entries already stored keep their text; the new one decodes
    to the text pushed. *)
Lemma push_string_decoded key c :
  chunk_wf c → decoded (push_string key c) = decoded c ++ [Some key].
Proof.
  intros [Hd Hc]. unfold decoded, get_cat_keys.
  rw push_string_cat_data push_string_cat_keys map_app /=.
  rw get_string_id_lookup //. f_equal.
  apply map_ext_Forall. eapply Forall_impl; [exact Hc |]. simpl.
  intros id Hid. apply lookup_lt_is_Some in Hid as [k Hk]. rw Hk.
  by eapply prefix_lookup_Some; [| apply get_string_id_prefix].
Qed.

(** The loop of [convert_to_string], over any list of numbers. *)
Lemma convert_loop_spec (vs : list number) c :
  chunk_wf c →
  let c' := foldl (λ acc v, push_string (render v) acc) c vs in
  chunk_wf c' ∧
  decoded c' = decoded c ++ map (λ v, Some (render v)) vs ∧
  number_data_ c' = number_data_ c ∧
  column_name_ c' = column_name_ c.
Proof.
  revert c. induction vs as [| v vs IH]; intros c Hwf; simpl.
  { by rw app_nil_r. }
  destruct (IH (push_string (render v) c)) as (Hwf' & Hdec & Hnum & Hname).
  { by apply push_string_wf. }
  split_and!; [done | | |].
  - by rw Hdec push_string_decoded // -app_assoc.
  - by rw Hnum push_string_number_data.
  - by rw Hname push_string_column_name.
Qed.

Lemma convert_loop_cat_size (vs : list number) c :
  cat_size (foldl (λ acc v, push_string (render v) acc) c vs)
  = (cat_size c + length vs)%nat.
Proof.
  revert c. induction vs as [| v vs IH]; intros c; simpl; [lia |].
  rw IH push_string_cat_size. lia.
Qed.

End PushString.

(** ** What [convert_to_string] leaves behind *)

Section Convert.
Implicit Types c : ColBasedChunk.

Lemma convert_to_string_number_size c : number_size (convert_to_string c) = 0%nat.
Proof.
  unfold convert_to_string. destruct (0 <? number_size c)%nat eqn:E; [done |].
  apply Nat.ltb_ge in E. lia.
Qed.

Lemma convert_to_string_cat_size c :
  cat_size (convert_to_string c) = (cat_size c + number_size c)%nat.
Proof.
  unfold convert_to_string. destruct (0 <? number_size c)%nat eqn:E.
  - change (cat_size (set_number_data ?v ?d)) with (cat_size d).
    by rw convert_loop_cat_size.
  - apply Nat.ltb_ge in E. lia.
Qed.

Lemma convert_to_string_wf c : chunk_wf c → chunk_wf (convert_to_string c).
Proof.
  intros Hwf. unfold convert_to_string.
  destruct (0 <? number_size c)%nat; [| done].
  by destruct (convert_loop_spec (Widening.data (number_data_ c)) c Hwf)
    as ([Hd Hc] & _).
Qed.

Lemma convert_to_string_decoded_app c :
  chunk_wf c →
  decoded (convert_to_string c) =
    decoded c ++ map (λ v, Some (render v)) (Widening.data (number_data_ c)).
Proof.
  intros Hwf. unfold convert_to_string.
  destruct (0 <? number_size c)%nat eqn:E.
  - by destruct (convert_loop_spec (Widening.data (number_data_ c)) c Hwf)
      as (_ & Hdec & _).
  - apply Nat.ltb_ge in E. unfold number_size, Widening.size in E.
    destruct (Widening.data (number_data_ c)); simpl in *; [| lia].
    by rw app_nil_r.
Qed.
End Convert.

(** ** Invariants of the public interface *)

Section Invariants.
Implicit Types c : ColBasedChunk.

Lemma chunk_wf_new name : chunk_wf (new_chunk name).
Proof. split; [apply dict_wf_new | by apply Forall_nil]. Qed.

Lemma chunk_wf_set_number_data v c : chunk_wf c → chunk_wf (set_number_data v c).
Proof. by intros [? ?]. Qed.

Lemma chunk_wf_clear c : chunk_wf (clear c).
Proof. apply (chunk_wf_new (column_name_ c)). Qed.

Lemma chunk_wf_process_categorical text c :
  chunk_wf c → chunk_wf (process_categorical text c).
Proof.
  intros Hwf. unfold process_categorical.
  destruct (0 <? number_size c)%nat; [case_bool_decide |].
  - by apply chunk_wf_set_number_data.
  - by apply push_string_wf, convert_to_string_wf.
  - by apply push_string_wf.
Qed.

Lemma chunk_wf_process tk c : chunk_wf c → chunk_wf (process tk c).
Proof.
  intros Hwf. destruct tk as [val | val | text]; simpl.
  - unfold process_float. destruct (0 <? cat_size c)%nat.
    + by apply chunk_wf_process_categorical.
    + by apply chunk_wf_set_number_data.
  - unfold process_integer. destruct (0 <? cat_size c)%nat.
    + by apply chunk_wf_process_categorical.
    + by apply chunk_wf_set_number_data.
  - by apply chunk_wf_process_categorical.
Qed.

Lemma chunk_wf_run_call k c : chunk_wf c → chunk_wf (run_call k c).
Proof.
  intros Hwf. destruct k; simpl.
  - by apply (chunk_wf_process (Float val)).
  - by apply (chunk_wf_process (Integer val)).
  - by apply (chunk_wf_process (Categorical text)).
  - by apply push_string_wf.
  - by apply convert_to_string_wf.
  - apply chunk_wf_clear.
Qed.

Lemma chunk_wf_run ks c : chunk_wf c → chunk_wf (run ks c).
Proof.
  revert c. induction ks as [| k ks IH]; intros c Hwf; [done |].
  by apply IH, chunk_wf_run_call.
Qed.

Lemma chunk_wf_process_all tks c : chunk_wf c → chunk_wf (process_all tks c).
Proof.
  revert c. induction tks as [| tk tks IH]; intros c Hwf; [done |].
  by apply IH, chunk_wf_process.
Qed.

(** In a state where one store is empty, a [process_] call is one of
    three plain steps. *)
Lemma process_categorical_cases text c :
  mode_invariant c →
  (0 < number_size c)%nat ∧ cat_size c = 0%nat ∧ text = "" ∧
    process_categorical text c =
      set_number_data (Widening.push_back number_rank (NInt 0) (number_data_ c)) c
  ∨ (0 < number_size c)%nat ∧ cat_size c = 0%nat ∧ text ≠ "" ∧
    process_categorical text c = push_string text (convert_to_string c)
  ∨ number_size c = 0%nat ∧ process_categorical text c = push_string text c.
Proof.
  intros Hmode. unfold process_categorical.
  destruct (0 <? number_size c)%nat eqn:E.
  - apply Nat.ltb_lt in E. destruct Hmode as [? | Hcat]; [lia |].
    case_bool_decide; [left | right; left]; done.
  - apply Nat.ltb_ge in E. right; right. split; [lia | done].
Qed.

Lemma number_size_push v c :
  number_size (set_number_data (Widening.push_back number_rank v (number_data_ c)) c)
  = S (number_size c).
Proof. unfold number_size, Widening.size. simpl. rw length_app /=. lia. Qed.

Lemma mode_invariant_process_categorical text c :
  mode_invariant c → mode_invariant (process_categorical text c).
Proof.
  intros Hmode.
  destruct (process_categorical_cases text c Hmode)
    as [(_ & Hcat & _ & ->) | [(_ & _ & _ & ->) | (Hnum & ->)]].
  - by right.
  - left. by rw push_string_number_size convert_to_string_number_size.
  - left. by rw push_string_number_size.
Qed.

Lemma mode_invariant_process tk c : mode_invariant c → mode_invariant (process tk c).
Proof.
  intros Hmode. destruct tk as [val | val | text]; simpl.
  - unfold process_float. destruct (0 <? cat_size c)%nat eqn:E.
    + by apply mode_invariant_process_categorical.
    + apply Nat.ltb_ge in E. right. unfold cat_size in *. simpl. lia.
  - unfold process_integer. destruct (0 <? cat_size c)%nat eqn:E.
    + by apply mode_invariant_process_categorical.
    + apply Nat.ltb_ge in E. right. unfold cat_size in *. simpl. lia.
  - by apply mode_invariant_process_categorical.
Qed.
(** Every state the public interface produces from a new chunk has a
    consistent dictionary and only valid codes. *)
Corollary chunk_wf_reachable name ks : chunk_wf (run ks (new_chunk name)).
Proof. apply chunk_wf_run, chunk_wf_new. Qed.

(** A column fed by the tokenizer alone never has both stores in use. *)
Corollary mode_invariant_process_all name tks :
  mode_invariant (process_all tks (new_chunk name)).
Proof.
  assert (H : mode_invariant (new_chunk name)) by by left.
  revert H. generalize (new_chunk name).
  induction tks as [| tk tks IH]; intros c Hc; [done |].
  by apply IH, mode_invariant_process.
Qed.
End Invariants.

(** * The claims of the specification *)

(** ** Empty field in a numeric column *)

(** C2: in numeric mode with at least one stored number,
    [process_categorical] on an empty range appends the integer 0 to the
    numeric store (its size grows by one, its last value is 0), leaves the
    categorical store and the dictionary alone, and the column stays
    numeric. *)
Theorem process_categorical_empty_appends_zero (c : ColBasedChunk) :
  get_semantics c = NUMERIC →
  (0 < number_size c)%nat →
  let c' := process_categorical "" c in
  Widening.data (number_data_ c') = Widening.data (number_data_ c) ++ [NInt 0] ∧
  last (Widening.data (number_data_ c')) = Some (NInt 0) ∧
  number_size c' = S (number_size c) ∧
  size c' = S (size c) ∧
  get_semantics c' = NUMERIC ∧
  cat_data_ c' = cat_data_ c ∧
  cat_ids_ c' = cat_ids_ c ∧
  cat_keys_ c' = cat_keys_ c.
Proof.
  intros Hsem Hnum c'. subst c'. unfold process_categorical.
  apply Nat.ltb_lt in Hnum. rw Hnum. simpl.
  unfold get_semantics, size in *.
  change (cat_size (set_number_data ?v c)) with (cat_size c).
  destruct (0 <? cat_size c)%nat; [done |].
  split_and!; try done.
  - apply last_snoc.
  - apply number_size_push.
  - apply number_size_push.
Qed.

Lemma process_categorical_empty_appends_zero_example :
  let c' := process_categorical "" one_two in
  Widening.data (number_data_ c') = [NInt 1; NInt 2] ++ [NInt 0] ∧
  last (Widening.data (number_data_ c')) = Some (NInt 0) ∧
  number_size c' = 3%nat ∧
  size c' = 3%nat ∧
  get_semantics c' = NUMERIC ∧
  cat_data_ c' = cat_data_ one_two ∧
  cat_ids_ c' = cat_ids_ one_two ∧
  cat_keys_ c' = cat_keys_ one_two.
Proof.
  apply (process_categorical_empty_appends_zero one_two).
  - reflexivity.
  - vm_compute. lia.
Defined.

(** ** The worked example: 1, 2, an empty field, then "x" *)

(** C3, as the specification words it, fails: the three stored numbers
    do not come out as the texts "1", "2", "0". *)
Lemma mixed_column_not_bare_integers :
  decoded (process_categorical "x" (process_categorical "" one_two))
  ≠ [Some "1"; Some "2"; Some "0"; Some "x"].
Proof. vm_compute. discriminate. Qed.

(** An integer that arrives after the switch is printed as a [long],
    without the fractional digits. *)
Example late_integer_is_printed_as_long :
  decoded (process_integer 1 (process_categorical "x" (new_chunk "")))
  = [Some "x"; Some "1"].
Proof. by vm_compute. Qed.

(** C3, amended: after the integers 1 and 2 and an empty field the
    numeric store holds 1, 2, 0; [process_categorical "x"] then reads each
    stored number as a [float] and renders it with six fractional digits,
    so the column is categorical with exactly four entries, decoding to
    "1.000000", "2.000000", "0.000000", "x" in that order.  The same
    holds when 1 and 2 arrived through [process_float]. *)
Theorem mixed_column_converts_to_fixed_point_texts :
  let c := process_categorical "" one_two in
  let c' := process_categorical "x" c in
  let d := process_categorical ""
             (process_float f32_two (process_float f32_one (new_chunk ""))) in
  Widening.data (number_data_ c) = [NInt 1; NInt 2; NInt 0] ∧
  decoded c' = [Some "1.000000"; Some "2.000000"; Some "0.000000"; Some "x"] ∧
  get_cat_keys c' = ["1.000000"; "2.000000"; "0.000000"; "x"] ∧
  Widening.data (cat_data_ c') = [0; 1; 2; 3]%nat ∧
  size c' = 4%nat ∧
  get_semantics c' = STRINGISH ∧
  number_size c' = 0%nat ∧
  decoded (process_categorical "x" d) = decoded c'.
Proof. vm_compute. repeat split. Qed.

(** ** Clearing *)

(** C9: after [clear], on any chunk, [size] is 0 and [get_semantics] is
    numeric, as for a new chunk; both stores, the code map and the key
    list are empty, so the cleared chunk is the new chunk of that name. *)
Theorem clear_resets_everything (c : ColBasedChunk) (name : string) :
  size (clear c) = 0%nat ∧
  get_semantics (clear c) = NUMERIC ∧
  size (new_chunk name) = size (clear c) ∧
  get_semantics (new_chunk name) = get_semantics (clear c) ∧
  number_data_ (clear c) = Widening.empty ∧
  cat_data_ (clear c) = Widening.empty ∧
  cat_ids_ (clear c) = ∅ ∧
  cat_keys_ (clear c) = [] ∧
  clear c = new_chunk (column_name_ c).
Proof. by repeat split. Qed.

(** ** The common type of two chunks *)

(** C7: the common-type query of two chunks is symmetric (in particular
    for any two numeric stores, whatever their active candidates), and it
    answers the string identifier whenever the other side is the string
    identifier or the chunk itself is categorical. *)
Theorem common_type_symmetric_and_string_absorbing :
  (∀ a b : ColBasedChunk,
     get_common_type_index a (get_type_index b) =
     get_common_type_index b (get_type_index a)) ∧
  (∀ v w : Widening.t number,
     number_get_common_type_index v (number_get_type_index w) =
     number_get_common_type_index w (number_get_type_index v)) ∧
  (∀ c : ColBasedChunk, get_common_type_index c TI_string = TI_string) ∧
  (∀ (c : ColBasedChunk) (other : type_index),
     get_semantics c = STRINGISH →
     get_type_index c = TI_string ∧ get_common_type_index c other = TI_string) ∧
  (∀ v : Widening.t number, number_get_common_type_index v TI_string = TI_string).
Proof.
  assert (Hnum : ∀ v w : Widening.t number,
             number_get_common_type_index v (number_get_type_index w) =
             number_get_common_type_index w (number_get_type_index v)).
  { intros v w. unfold number_get_common_type_index. by rw Nat.max_comm. }
  assert (Hstr : ∀ v : Widening.t number,
             number_get_type_index v ≠ TI_string).
  { intros v. unfold number_get_type_index.
    assert (Nat.min (Widening.active v) 4 ≤ 4)%nat as Hle by lia.
    destruct (Nat.min (Widening.active v) 4) as [| [| [| [| [| n]]]]];
      try done. lia. }
  split_and!.
  - intros a b. unfold get_common_type_index, get_type_index.
    destruct (0 <? cat_size a)%nat, (0 <? cat_size b)%nat; simpl; try done.
    case_bool_decide as H1; [by apply Hstr in H1 |].
    case_bool_decide as H2; [by apply Hstr in H2 |]. apply Hnum.
  - exact Hnum.
  - intros c. unfold get_common_type_index.
    by destruct (0 <? cat_size c)%nat.
  - intros c other. unfold get_semantics, get_type_index, get_common_type_index.
    by destruct (0 <? cat_size c)%nat.
  - intros v. unfold number_get_common_type_index.
    by destruct (type_rank (number_get_type_index v)) as [| [| [| [| [| n]]]]].
Qed.

(** ** Converting the numeric history *)

(** C1, as the specification words it, fails: the conversion reads each
    stored number as a [float] and prints six fractional digits, so two
    different stored values can decode to the same text, and no reading
    of the texts gives the stored values back. *)
Lemma convert_to_string_alters_values :
  let c := process_float f32_tiny (process_float f32_zero (new_chunk "")) in
  Widening.data (number_data_ c) = [NFloat f32_zero; NFloat f32_tiny] ∧
  decoded (convert_to_string c) = [Some "0.000000"; Some "0.000000"] ∧
  ¬ ∃ parse : string → spec_float,
      ∀ i v text,
        Widening.data (number_data_ c) !! i = Some v →
        decoded (convert_to_string c) !! i = Some (Some text) →
        parse text = number_to_float v.
Proof.
  split_and!; [by vm_compute .. |].
  intros [parse Hparse].
  pose proof (Hparse 0%nat (NFloat f32_zero) "0.000000" eq_refl eq_refl) as H0.
  pose proof (Hparse 1%nat (NFloat f32_tiny) "0.000000" eq_refl eq_refl) as H1.
  simpl in H0, H1. rw H0 in H1. discriminate.
Qed.

(** The same happens to integers beyond 24 bits: 16777217 is read back
    as the float 16777216. *)
Example convert_to_string_rounds_large_integers :
  decoded (convert_to_string
             (process_integer 16777217 (process_integer 16777216 (new_chunk ""))))
  = [Some "16777216.000000"; Some "16777216.000000"].
Proof. by vm_compute. Qed.

(** C1, amended: for a chunk that holds only numeric data,
    [convert_to_string] produces a categorical store with one entry per
    stored number, in insertion order, the i-th entry decoding to the
    rendering of the i-th stored number ([std::to_string] of its value
    read as [float]); the numeric store is left empty and [size] is
    unchanged. *)
Theorem convert_to_string_renders_in_order (c : ColBasedChunk) :
  dict_wf c →
  cat_size c = 0%nat →
  let c' := convert_to_string c in
  decoded c' = map (λ v, Some (render v)) (Widening.data (number_data_ c)) ∧
  (∀ i v, Widening.data (number_data_ c) !! i = Some v →
          decoded c' !! i = Some (Some (render v))) ∧
  cat_size c' = number_size c ∧
  number_size c' = 0%nat ∧
  size c' = size c.
Proof.
  intros Hd Hcat c'. subst c'.
  assert (Hwf : chunk_wf c).
  { split; [done |]. unfold codes_wf. unfold cat_size, Widening.size in Hcat.
    apply nil_length_inv in Hcat. rw Hcat. by apply Forall_nil. }
  assert (Hdec : decoded (convert_to_string c) =
                 map (λ v, Some (render v)) (Widening.data (number_data_ c))).
  { rw convert_to_string_decoded_app //. unfold decoded.
    unfold cat_size, Widening.size in Hcat. apply nil_length_inv in Hcat.
    by rw Hcat. }
  split_and!.
  - done.
  - intros i v Hi. by rw Hdec list_lookup_fmap Hi.
  - rw convert_to_string_cat_size. lia.
  - apply convert_to_string_number_size.
  - unfold size. rw convert_to_string_cat_size Hcat /=.
    rw convert_to_string_number_size.
    by destruct (number_size c).
Qed.

Lemma convert_to_string_renders_in_order_example :
  let c' := convert_to_string one_two in
  decoded c' = map (λ v, Some (render v)) (Widening.data (number_data_ one_two)) ∧
  (∀ i v, Widening.data (number_data_ one_two) !! i = Some v →
          decoded c' !! i = Some (Some (render v))) ∧
  cat_size c' = number_size one_two ∧
  number_size c' = 0%nat ∧
  size c' = size one_two.
Proof.
  apply (convert_to_string_renders_in_order one_two).
  - apply (chunk_wf_process_all [Integer 1; Integer 2]), chunk_wf_new.
  - reflexivity.
Defined.

(** ** The mode invariant *)

(** C4, as the specification words it, fails: [add_cat_data] appends to
    the categorical store without looking at the numeric store, so after
    [process_integer 1] and [add_cat_data "x"] both stores are
    non-empty. *)
Lemma add_cat_data_breaks_mode_invariant :
  let c := run [Call_process_integer 1; Call_add_cat_data "x"] (new_chunk "") in
  Widening.data (number_data_ c) = [NInt 1] ∧
  Widening.data (cat_data_ c) = [0%nat] ∧
  ¬ mode_invariant c.
Proof.
  split_and!; [by vm_compute .. |].
  intros [H | H]; vm_compute in H; discriminate.
Qed.

(** C4, amended: in every state reached from a new chunk by
    [process_float], [process_integer], [process_categorical],
    [convert_to_string], [clear], and [add_cat_data] called only while the
    numeric store is empty, at most one of the two stores is non-empty. *)
Theorem mode_invariant_reachable_guarded (c : ColBasedChunk) :
  reachable_guarded c → mode_invariant c.
Proof.
  induction 1 as [name | val c _ IH | val c _ IH | text c _ IH
                 | data c _ IH Hnum | c _ IH | c _ IH].
  - by left.
  - by apply (mode_invariant_process (Float val)).
  - by apply (mode_invariant_process (Integer val)).
  - by apply (mode_invariant_process (Categorical text)).
  - left. unfold add_cat_data. by rw push_string_number_size.
  - left. apply convert_to_string_number_size.
  - by left.
Qed.

Lemma mode_invariant_reachable_guarded_example :
  mode_invariant
    (add_cat_data "y" (process_integer 3 (process_categorical "x" one_two))).
Proof.
  apply mode_invariant_reachable_guarded.
  apply rg_add_cat_data; [| reflexivity].
  apply rg_process_integer, rg_process_categorical.
  apply rg_process_integer, rg_process_integer, rg_new.
Defined.

(** ** One-way switch to categorical *)

(** C5: once [convert_to_string] has run on a chunk that held numeric
    data, the column reports categorical semantics after every further
    sequence of [process_float], [process_integer] and
    [process_categorical] calls and its numeric store stays empty; each
    further float or integer is rendered to text, the code of that text
    is appended to the categorical store, and (the dictionary being
    consistent) the new entry decodes to that text. *)
Theorem convert_to_string_is_one_way (c : ColBasedChunk) (tks : list token) :
  (0 < number_size c)%nat →
  let c' := process_all tks (convert_to_string c) in
  get_semantics c' = STRINGISH ∧
  number_size c' = 0%nat ∧
  (∀ val : spec_float,
     let text := Text.to_string_float val in
     process_float val c' = push_string text c' ∧
     Widening.data (cat_data_ (process_float val c')) =
       Widening.data (cat_data_ c') ++ [(get_string_id text c').1] ∧
     number_size (process_float val c') = 0%nat ∧
     get_semantics (process_float val c') = STRINGISH ∧
     (chunk_wf c → decoded (process_float val c') = decoded c' ++ [Some text])) ∧
  (∀ val : Z,
     let text := Text.to_string_long val in
     process_integer val c' = push_string text c' ∧
     Widening.data (cat_data_ (process_integer val c')) =
       Widening.data (cat_data_ c') ++ [(get_string_id text c').1] ∧
     number_size (process_integer val c') = 0%nat ∧
     get_semantics (process_integer val c') = STRINGISH ∧
     (chunk_wf c → decoded (process_integer val c') = decoded c' ++ [Some text])).
Proof.
  intros Hnum c'.
  assert (Hinv : (0 < cat_size c')%nat ∧ number_size c' = 0%nat).
  { subst c'.
    assert (H0 : (0 < cat_size (convert_to_string c))%nat ∧
                 number_size (convert_to_string c) = 0%nat).
    { split.
      - rw convert_to_string_cat_size. lia.
      - apply convert_to_string_number_size. }
    revert H0. generalize (convert_to_string c). clear c Hnum.
    induction tks as [| tk tks IH]; intros c (Hcat & Hnum); [done |].
    simpl. apply IH.
    assert (Hstep : ∀ text, process_categorical text c = push_string text c).
    { intros text. unfold process_categorical. by rw Hnum. }
    apply Nat.ltb_lt in Hcat.
    destruct tk as [val | val | text]; simpl;
      unfold process_float, process_integer; rw ?Hcat Hstep;
      rw push_string_cat_size push_string_number_size; (split; [lia | done]). }
  destruct Hinv as (Hcat & Hnum').
  assert (Hwf' : chunk_wf c → chunk_wf c').
  { intros Hwf. by apply chunk_wf_process_all, convert_to_string_wf. }
  assert (Hstep : ∀ text, process_categorical text c' = push_string text c').
  { intros text. unfold process_categorical. by rw Hnum'. }
  assert (Hpush : ∀ text,
             Widening.data (cat_data_ (push_string text c')) =
               Widening.data (cat_data_ c') ++ [(get_string_id text c').1] ∧
             number_size (push_string text c') = 0%nat ∧
             get_semantics (push_string text c') = STRINGISH ∧
             (chunk_wf c →
              decoded (push_string text c') = decoded c' ++ [Some text])).
  { intros text. split_and!.
    - apply push_string_cat_data.
    - by rw push_string_number_size.
    - unfold get_semantics. by rw push_string_cat_size.
    - intros Hwf. by apply push_string_decoded, Hwf'. }
  apply Nat.ltb_lt in Hcat.
  split_and!.
  - unfold get_semantics. by rw Hcat.
  - done.
  - intros val text. unfold process_float. rw Hcat Hstep.
    split; [done | apply Hpush].
  - intros val text. unfold process_integer. rw Hcat Hstep.
    split; [done | apply Hpush].
Qed.

Lemma convert_to_string_is_one_way_example :
  let c' := process_all [Integer 7; Float f32_one; Categorical ""]
              (convert_to_string one_two) in
  get_semantics c' = STRINGISH ∧ number_size c' = 0%nat.
Proof.
  pose proof (convert_to_string_is_one_way one_two
                [Integer 7; Float f32_one; Categorical ""]) as H.
  destruct H as (Hsem & Hnum & _); [vm_compute; lia |].
  exact (conj Hsem Hnum).
Defined.

(** ** The string dictionary *)

(** C6: interning any sequence of texts into an empty dictionary returns
    one code per text; the key list indexed by a returned code gives the
    text back; a text seen before gets the code of its first interning;
    a text not seen before gets the number of distinct texts seen so far,
    so new texts are numbered 0, 1, 2, ... in first-seen order; the key
    list has no repeats, holds exactly the texts interned, and only grows
    by a further interning.  Interning "a", "b", "a", "c" gives the codes
    0, 1, 0, 2 and the key list "a", "b", "c". *)
Theorem intern_codes_first_seen (name : string) (texts : list string) :
  let ids := (intern_all texts (new_chunk name)).1 in
  let c' := (intern_all texts (new_chunk name)).2 in
  length ids = length texts ∧
  (∀ i text, texts !! i = Some text →
     ∃ id, ids !! i = Some id ∧ get_cat_keys c' !! id = Some text) ∧
  (∀ i j text, texts !! i = Some text → texts !! j = Some text →
     ids !! i = ids !! j) ∧
  (∀ i text, texts !! i = Some text → text ∉ take i texts →
     ids !! i = Some (length (remove_dups (take i texts)))) ∧
  NoDup (get_cat_keys c') ∧
  (∀ text, text ∈ get_cat_keys c' ↔ text ∈ texts) ∧
  (∀ text, get_cat_keys c' `prefix_of` get_cat_keys (get_string_id text c').2) ∧
  (intern_all ["a"; "b"; "a"; "c"] (new_chunk name)).1 = [0; 1; 0; 2]%nat ∧
  get_cat_keys (intern_all ["a"; "b"; "a"; "c"] (new_chunk name)).2
    = ["a"; "b"; "c"].
Proof.
  intros ids c'.
  destruct (intern_all_spec texts (new_chunk name) (dict_wf_new name))
    as (Hwf & Hlen & _ & Hdec & Helem & Hnew).
  fold ids c' in Hwf, Hlen, Hdec, Helem, Hnew.
  pose proof (dict_wf_NoDup c' Hwf) as Hnd.
  split_and!.
  - done.
  - done.
  - intros i j text Hi Hj.
    destruct (Hdec i text Hi) as (a & Ha & Hka).
    destruct (Hdec j text Hj) as (b & Hb & Hkb).
    rw Ha Hb. f_equal. by eapply NoDup_lookup.
  - intros i text Hi Hfresh.
    rw (Hnew i text) //. simpl. by apply not_elem_of_nil.
  - done.
  - intros text. unfold get_cat_keys. rw Helem. simpl. split; [| auto].
    by intros [?%elem_of_nil | ?].
  - intros text. apply get_string_id_prefix.
  - by vm_compute.
  - by vm_compute.
Qed.

(** ** Numeric reads of a categorical column *)

(** C8, as the specification words it, fails for the single-element
    read: [get<T, true>] does not look at the mode.  On a categorical
    chunk whose numeric store is empty it fails, but with the store's
    out-of-range failure; on one whose numeric store still holds data it
    returns that data. *)
Lemma get_numeric_is_not_guarded :
  let c := process_categorical "x" (new_chunk "") in
  let d := add_cat_data "x" (process_integer 7 (new_chunk "")) in
  get_semantics c = STRINGISH ∧
  get number_to_float (λ n, Text.float_of_long (Z.of_nat n)) true c 0
    = Err out_of_range ∧
  get_semantics d = STRINGISH ∧
  get number_to_float (λ n, Text.float_of_long (Z.of_nat n)) true d 0
    = Ok (Text.float_of_long 7).
Proof. by vm_compute. Qed.

(** C8, amended: on a chunk in categorical mode the bulk extraction
    [insert_numeric] fails with [logic_error "expected numeric data"]
    and returns no data; the single-element [get<T, true>] carries no
    mode check and answers what the numeric store answers at that index,
    which is the out-of-range failure whenever the numeric store is
    empty. *)
Theorem numeric_reads_of_categorical_chunk
    {T : Type} (cast : spec_float → T) (of_number : number → T)
    (of_size_t : nat → T) (c : ColBasedChunk) (i : nat) :
  get_semantics c = STRINGISH →
  insert_numeric cast c = Err (logic_error "expected numeric data") ∧
  get of_number of_size_t true c i
    = result_map of_number (Widening.get (number_data_ c) i) ∧
  (number_size c = 0%nat →
   get of_number of_size_t true c i = Err out_of_range).
Proof.
  intros Hsem. unfold get_semantics in Hsem. unfold insert_numeric.
  destruct (0 <? cat_size c)%nat; [| done].
  split_and!; [done .. |].
  intros Hnum. unfold get, Widening.get.
  unfold number_size, Widening.size in Hnum. apply nil_length_inv in Hnum.
  by rw Hnum.
Qed.

Lemma numeric_reads_of_categorical_chunk_example :
  let c := process_categorical "x" one_two in
  insert_numeric id c = Err (logic_error "expected numeric data") ∧
  get number_to_float (λ n, Text.float_of_long (Z.of_nat n)) true c 0
    = result_map number_to_float (Widening.get (number_data_ c) 0) ∧
  (number_size c = 0%nat →
   get number_to_float (λ n, Text.float_of_long (Z.of_nat n)) true c 0
     = Err out_of_range).
Proof.
  apply (numeric_reads_of_categorical_chunk id number_to_float
           (λ n, Text.float_of_long (Z.of_nat n))
           (process_categorical "x" one_two) 0).
  reflexivity.
Defined.

(** ** Growth by one *)

(** C10, as stated, fails in a state where both stores hold data (which
    [add_cat_data] after numeric input produces): an empty field then
    goes to the numeric store while [size] reports the categorical one,
    and an integer drags the whole numeric history along. *)
Lemma size_not_always_incremented :
  let c := add_cat_data "x" (process_integer 1 (new_chunk "")) in
  size c = 1%nat ∧
  size (process_categorical "" c) ≠ S (size c) ∧
  size (process_integer 5 c) ≠ S (size c).
Proof. vm_compute. split_and!; [done | lia | lia]. Qed.

(** C10, amended: on a chunk whose two stores are not both non-empty,
    every single call of [process_float], [process_integer] or
    [process_categorical] (the empty field taken as zero and the call
    that converts the numeric history included) increases [size] by
    exactly one. *)
Theorem process_increments_size (tk : token) (c : ColBasedChunk) :
  mode_invariant c → size (process tk c) = S (size c).
Proof.
  intros Hmode.
  assert (Hcat : ∀ text, size (process_categorical text c) = S (size c)).
  { intros text. unfold size.
    destruct (process_categorical_cases text c Hmode)
      as [(Hnum & Hcat & _ & ->) | [(Hnum & Hcat & _ & ->) | (Hnum & ->)]].
    - change (cat_size (set_number_data ?v c)) with (cat_size c).
      rw Hcat /=. apply number_size_push.
    - rw push_string_cat_size convert_to_string_cat_size Hcat /=. lia.
    - rw push_string_cat_size /= Hnum. by destruct (0 <? cat_size c)%nat eqn:E;
        [| apply Nat.ltb_ge in E; lia]. }
  destruct tk as [val | val | text]; simpl; [| | done].
  - unfold process_float. destruct (0 <? cat_size c)%nat eqn:E; [done |].
    unfold size. change (cat_size (set_number_data ?v c)) with (cat_size c).
    rw E. apply number_size_push.
  - unfold process_integer. destruct (0 <? cat_size c)%nat eqn:E; [done |].
    unfold size. change (cat_size (set_number_data ?v c)) with (cat_size c).
    rw E. apply number_size_push.
Qed.

Lemma process_increments_size_example :
  size (process (Categorical "x") one_two) = S (size one_two).
Proof.
  apply (process_increments_size (Categorical "x") one_two).
  right. reflexivity.
Defined.


(** * Further properties of the chunk *)

(** ** Helper facts about single steps *)

Section Steps.
Implicit Types (c : ColBasedChunk) (tk : token) (text : string).

Lemma decoded_nil c : cat_size c = 0%nat → decoded c = [].
Proof.
  unfold cat_size, Widening.size, decoded. intros H%nil_length_inv. by rw H.
Qed.

Lemma decoded_length c : length (decoded c) = cat_size c.
Proof. unfold decoded. by rw length_map. Qed.

Lemma number_size_pos_push v c :
  (0 <? number_size
          (set_number_data (Widening.push_back number_rank v (number_data_ c)) c))%nat
  = true.
Proof. apply Nat.ltb_lt. rw number_size_push. lia. Qed.

(** With an empty numeric store and a non-empty categorical store every
    field is pushed as its text. *)
Lemma process_in_categorical tk c :
  number_size c = 0%nat → (0 < cat_size c)%nat →
  process tk c = push_string (token_text tk) c.
Proof.
  intros Hnum Hcat%Nat.ltb_lt.
  assert (Hstep : ∀ text, process_categorical text c = push_string text c).
  { intros text. unfold process_categorical. by rw Hnum. }
  destruct tk as [val | val | text]; simpl;
    unfold process_float, process_integer; by rw ?Hcat Hstep.
Qed.

(** The field that makes a numeric column categorical. *)
Lemma process_categorical_switch text c :
  chunk_wf c → cat_size c = 0%nat →
  (0 <? number_size c)%nat && bool_decide (text = "") = false →
  decoded (process_categorical text c)
    = map (λ v, Some (render v)) (Widening.data (number_data_ c)) ++ [Some text] ∧
  number_size (process_categorical text c) = 0%nat ∧
  (0 < cat_size (process_categorical text c))%nat ∧
  chunk_wf (process_categorical text c).
Proof.
  intros Hwf Hcat Hsw. unfold process_categorical.
  destruct (0 <? number_size c)%nat eqn:E; simpl in Hsw.
  - rw Hsw. split_and!.
    + rw push_string_decoded; [by apply convert_to_string_wf |].
      by rw convert_to_string_decoded_app // decoded_nil.
    + by rw push_string_number_size convert_to_string_number_size.
    + rw push_string_cat_size. lia.
    + by apply push_string_wf, convert_to_string_wf.
  - apply Nat.ltb_ge in E.
    assert (Hdata : Widening.data (number_data_ c) = []).
    { apply nil_length_inv. unfold number_size, Widening.size in E. lia. }
    split_and!.
    + by rw push_string_decoded // decoded_nil // Hdata.
    + rw push_string_number_size. lia.
    + rw push_string_cat_size. lia.
    + by apply push_string_wf.
Qed.

(** The categorical phase: every further field adds its text. *)
Lemma categorical_phase tks c :
  chunk_wf c → number_size c = 0%nat → (0 < cat_size c)%nat →
  decoded (process_all tks c) = decoded c ++ map (λ tk, Some (token_text tk)) tks ∧
  number_size (process_all tks c) = 0%nat ∧
  cat_size (process_all tks c) = (cat_size c + length tks)%nat.
Proof.
  revert c. induction tks as [| tk tks IH]; intros c Hwf Hnum Hcat; simpl.
  { rw app_nil_r. split_and!; [done | done | lia]. }
  rw process_in_categorical //.
  destruct (IH (push_string (token_text tk) c)) as (Hdec & Hn & Hc).
  - by apply push_string_wf.
  - by rw push_string_number_size.
  - rw push_string_cat_size. lia.
  - split_and!.
    + by rw Hdec push_string_decoded // -app_assoc.
    + done.
    + rw Hc push_string_cat_size. lia.
Qed.

(** The numeric phase, from a chunk with an empty categorical store. *)
Lemma numeric_phase tks c :
  chunk_wf c → cat_size c = 0%nat →
  let ns := (numeric_run (0 <? number_size c)%nat tks).1 in
  let rest := (numeric_run (0 <? number_size c)%nat tks).2 in
  match rest with
  | [] =>
      Widening.data (number_data_ (process_all tks c))
        = Widening.data (number_data_ c) ++ ns ∧
      cat_size (process_all tks c) = 0%nat
  | _ :: _ =>
      decoded (process_all tks c)
        = map (λ v, Some (render v)) (Widening.data (number_data_ c) ++ ns)
          ++ map (λ tk, Some (token_text tk)) rest ∧
      number_size (process_all tks c) = 0%nat ∧
      cat_size (process_all tks c)
        = (number_size c + length ns + length rest)%nat
  end.
Proof.
  revert c. induction tks as [| tk tks IH]; intros c Hwf Hcat; simpl.
  { by rw app_nil_r. }
  assert (Hpush : ∀ v,
    let c1 := set_number_data
                (Widening.push_back number_rank v (number_data_ c)) c in
    match (numeric_run true tks).2 with
    | [] =>
        Widening.data (number_data_ (process_all tks c1))
          = Widening.data (number_data_ c) ++ v :: (numeric_run true tks).1 ∧
        cat_size (process_all tks c1) = 0%nat
    | _ :: _ =>
        decoded (process_all tks c1)
          = map (λ v, Some (render v))
              (Widening.data (number_data_ c) ++ v :: (numeric_run true tks).1)
            ++ map (λ tk, Some (token_text tk)) (numeric_run true tks).2 ∧
        number_size (process_all tks c1) = 0%nat ∧
        cat_size (process_all tks c1)
          = (number_size c + length (v :: (numeric_run true tks).1)
             + length (numeric_run true tks).2)%nat
    end).
  { intros v c1.
    pose proof (IH c1 (chunk_wf_set_number_data _ c Hwf) Hcat) as H.
    subst c1. rw number_size_pos_push in H. simpl in H.
    rw number_size_push in H.
    destruct (numeric_run true tks).2; simpl in *.
    - by rw -app_assoc in H.
    - rw -app_assoc in H. simpl in H.
      destruct H as (H1 & H2 & H3). split_and!; [done | done | lia]. }
  assert (Hle : (cat_size c ≤ 0)%nat) by lia. apply Nat.ltb_ge in Hle.
  destruct tk as [val | val | text]; simpl.
  - unfold process_float. rw Hle. apply Hpush.
  - unfold process_integer. rw Hle. apply Hpush.
  - destruct ((0 <? number_size c)%nat && bool_decide (text = "")) eqn:Hsw; simpl.
    + apply andb_true_iff in Hsw as [Hn Ht]. apply bool_decide_eq_true in Ht.
      unfold process_categorical. rw Hn Ht. simpl. apply Hpush.
    + destruct (process_categorical_switch text c Hwf Hcat Hsw)
        as (Hdec & Hn & Hc & Hwf1).
      destruct (categorical_phase tks _ Hwf1 Hn Hc) as (Hdec' & Hn' & Hc').
      split_and!.
      * by rw Hdec' Hdec app_nil_r -app_assoc.
      * done.
      * rw Hc' -(decoded_length (process_categorical text c)).
        rw Hdec length_app length_map /=. unfold number_size, Widening.size. lia.
Qed.

Lemma numeric_run_length started tks :
  (length (numeric_run started tks).1 + length (numeric_run started tks).2
   = length tks)%nat.
Proof.
  revert started. induction tks as [| tk tks IH]; intros started; [done |].
  destruct tk as [val | val | text]; simpl; try by rw IH.
  destruct (started && bool_decide (text = "")); simpl; [by rw IH | done].
Qed.

(** The sizes of the two stores after one field. *)
Lemma process_store_sizes tk c :
  mode_invariant c →
  (cat_size c = 0%nat ∧ cat_size (process tk c) = 0%nat ∧
   number_size (process tk c) = S (number_size c))
  ∨ (number_size (process tk c) = 0%nat ∧
     cat_size (process tk c) = S (cat_size c + number_size c)).
Proof.
  intros Hmode.
  assert (Hcatg : ∀ text,
    (cat_size c = 0%nat ∧ cat_size (process_categorical text c) = 0%nat ∧
     number_size (process_categorical text c) = S (number_size c))
    ∨ (number_size (process_categorical text c) = 0%nat ∧
       cat_size (process_categorical text c) = S (cat_size c + number_size c))).
  { intros text.
    destruct (process_categorical_cases text c Hmode)
      as [(Hnum & Hcat & _ & ->) | [(Hnum & Hcat & _ & ->) | (Hnum & ->)]].
    - left. split_and!; [done | done |]. apply number_size_push.
    - right. rw push_string_number_size convert_to_string_number_size.
      by rw push_string_cat_size convert_to_string_cat_size.
    - right. rw push_string_number_size push_string_cat_size.
      split; [done | lia]. }
  assert (Hnumb : ∀ v, cat_size c = 0%nat →
    cat_size c = 0%nat ∧
    cat_size (set_number_data
                (Widening.push_back number_rank v (number_data_ c)) c) = 0%nat ∧
    number_size (set_number_data
                   (Widening.push_back number_rank v (number_data_ c)) c)
      = S (number_size c)).
  { intros v Hcat. split_and!; [done | done |]. apply number_size_push. }
  destruct tk as [val | val | text]; simpl; [| | apply Hcatg].
  - unfold process_float. destruct (0 <? cat_size c)%nat eqn:E; [apply Hcatg |].
    left. apply Hnumb. apply Nat.ltb_ge in E. lia.
  - unfold process_integer. destruct (0 <? cat_size c)%nat eqn:E; [apply Hcatg |].
    left. apply Hnumb. apply Nat.ltb_ge in E. lia.
Qed.

Lemma size_cases c :
  mode_invariant c → size c = (cat_size c + number_size c)%nat.
Proof.
  intros [Hn | Hc]; unfold size.
  - rw Hn. destruct (0 <? cat_size c)%nat eqn:E; [lia |].
    apply Nat.ltb_ge in E. lia.
  - by rw Hc.
Qed.
End Steps.

(** ** The dictionary in every state *)

(** X1: in every state the public calls produce from a new chunk, the
    code map and the key list are inverse to each other and equally long,
    the key list has no repeats, and every code in the categorical store
    decodes: no stored code points outside the key list. *)
Theorem dictionary_consistent_in_every_state (name : string) (ks : list call) :
  let c := run ks (new_chunk name) in
  base.size (cat_ids_ c) = length (get_cat_keys c) ∧
  (∀ key id, cat_ids_ c !! key = Some id ↔ get_cat_keys c !! id = Some key) ∧
  NoDup (get_cat_keys c) ∧
  Forall is_Some (decoded c) ∧
  (∀ i id, get_string c i = Ok id → is_Some (get_cat_keys c !! id)).
Proof.
  intros c. destruct (chunk_wf_reachable name ks) as [Hd Hc]. fold c in Hd, Hc.
  assert (Hsome : ∀ id, id ∈ Widening.data (cat_data_ c) →
                        is_Some (get_cat_keys c !! id)).
  { intros id Hin. apply lookup_lt_is_Some.
    by apply (proj1 (Forall_forall _ _) Hc). }
  split_and!.
  - apply Hd.
  - apply Hd.
  - by apply dict_wf_NoDup.
  - unfold decoded. apply Forall_fmap, Forall_forall. intros id Hin.
    by apply Hsome.
  - intros i id. unfold get_string, Widening.get.
    destruct (Widening.data (cat_data_ c) !! i) as [id' |] eqn:E; [| done].
    intros [= <-]. apply Hsome. by eapply list_elem_of_lookup_2.
Qed.

(** X5: interning is stable.  Asking for the code of the same key again
    returns the same code and changes nothing more; a key already in the
    dictionary keeps its code when another key is interned; the key just
    interned is in the map under the code returned; the key list only
    grows at its end. *)
Theorem get_string_id_stable (key : string) (c : ColBasedChunk) :
  get_string_id key (get_string_id key c).2 = get_string_id key c ∧
  (∀ k id, cat_ids_ c !! k = Some id →
           cat_ids_ (get_string_id key c).2 !! k = Some id) ∧
  cat_ids_ (get_string_id key c).2 !! key = Some (get_string_id key c).1 ∧
  cat_keys_ c `prefix_of` cat_keys_ (get_string_id key c).2.
Proof.
  split_and!.
  - unfold get_string_id at 2 3.
    destruct (cat_ids_ c !! key) as [id |] eqn:Hk; simpl.
    + unfold get_string_id. by rw Hk.
    + unfold get_string_id. simpl. by rw lookup_insert_eq.
  - intros k id Hk. unfold get_string_id.
    destruct (cat_ids_ c !! key) as [id' |] eqn:Hkey; simpl; [done |].
    rw lookup_insert_ne //. congruence.
  - unfold get_string_id.
    destruct (cat_ids_ c !! key) as [id |] eqn:Hk; simpl; [done |].
    by rw lookup_insert_eq.
  - apply get_string_id_prefix.
Qed.

(** ** Reading back what was added *)

(** X6: in any state the public calls produce, [add_cat_data] appends
    exactly one entry; it decodes to the text added, it is the entry
    [get_string] reads at the old end of the categorical store, the
    earlier entries decode as before, the numeric store is untouched and
    the column reports categorical semantics. *)
Theorem add_cat_data_reads_back (name : string) (ks : list call) (data : string) :
  let c := run ks (new_chunk name) in
  let c' := add_cat_data data c in
  decoded c' = decoded c ++ [Some data] ∧
  (∃ id, get_string c' (cat_size c) = Ok id ∧ get_cat_keys c' !! id = Some data) ∧
  number_data_ c' = number_data_ c ∧
  get_semantics c' = STRINGISH.
Proof.
  intros c c'. pose proof (chunk_wf_reachable name ks) as Hwf. fold c in Hwf.
  subst c'. unfold add_cat_data. split_and!.
  - by apply push_string_decoded.
  - exists (get_string_id data c).1. split.
    + unfold get_string, Widening.get. rw push_string_cat_data.
      unfold cat_size, Widening.size.
      by rw lookup_app_r // Nat.sub_diag.
    + unfold get_cat_keys. rw push_string_cat_keys.
      apply get_string_id_lookup, Hwf.
  - apply push_string_number_data.
  - unfold get_semantics. by rw push_string_cat_size.
Qed.

(** X8: on a chunk whose numeric store is empty, [process_categorical]
    appends an entry that decodes to the text given whatever the text is,
    the empty text included, and the column is categorical afterwards:
    an empty field is taken as the number 0 only after a number. *)
Theorem process_categorical_on_empty_numeric_store
    (name : string) (ks : list call) (text : string) :
  let c := run ks (new_chunk name) in
  number_size c = 0%nat →
  let c' := process_categorical text c in
  decoded c' = decoded c ++ [Some text] ∧
  get_semantics c' = STRINGISH ∧
  number_size c' = 0%nat ∧
  size c' = S (cat_size c).
Proof.
  intros c Hnum c'. pose proof (chunk_wf_reachable name ks) as Hwf. fold c in Hwf.
  assert (Hc' : c' = push_string text c).
  { subst c'. unfold process_categorical. by rw Hnum. }
  rw Hc'. split_and!.
  - by apply push_string_decoded.
  - unfold get_semantics. by rw push_string_cat_size.
  - by rw push_string_number_size.
  - unfold size. by rw push_string_cat_size.
Qed.

Lemma process_categorical_on_empty_numeric_store_example :
  let c' := process_categorical "" (run [] (new_chunk "")) in
  decoded c' = decoded (run [] (new_chunk "")) ++ [Some ""] ∧
  get_semantics c' = STRINGISH ∧
  number_size c' = 0%nat ∧
  size c' = S (cat_size (run [] (new_chunk ""))).
Proof.
  apply (process_categorical_on_empty_numeric_store "" [] "").
  reflexivity.
Defined.

(** ** Converting twice *)

(** X7: [convert_to_string] is idempotent: a second call changes
    nothing, and on an empty numeric store the first one changes nothing
    either, the dictionary included. *)
Theorem convert_to_string_idempotent (c : ColBasedChunk) :
  convert_to_string (convert_to_string c) = convert_to_string c ∧
  (number_size c = 0%nat → convert_to_string c = c).
Proof.
  assert (H : ∀ d, number_size d = 0%nat → convert_to_string d = d).
  { intros d Hd. unfold convert_to_string. by rw Hd. }
  split; [| apply H]. apply H, convert_to_string_number_size.
Qed.

(** ** A column fed by the tokenizer *)

(** X2: the content of a column after any sequence of fields fed to a new
    chunk.  As long as every field is a number, or an empty text after
    at least one number, the column is numeric and its numeric store
    holds the numbers in order, the empty texts as the integer 0.  From
    the first other field on (a non-empty text, or a text in first
    position) the column is categorical, its numeric store is empty, and
    it decodes to the renderings of the numbers stored until then followed
    by the text of every later field. *)
Theorem column_contents_from_fields (name : string) (tks : list token) :
  let ns := (numeric_run false tks).1 in
  let rest := (numeric_run false tks).2 in
  let c := process_all tks (new_chunk name) in
  match rest with
  | [] =>
      get_semantics c = NUMERIC ∧
      Widening.data (number_data_ c) = ns ∧
      Widening.data (cat_data_ c) = []
  | _ :: _ =>
      get_semantics c = STRINGISH ∧
      Widening.data (number_data_ c) = [] ∧
      decoded c = map (λ v, Some (render v)) ns
                  ++ map (λ tk, Some (token_text tk)) rest
  end.
Proof.
  intros ns rest c.
  pose proof (numeric_phase tks (new_chunk name) (chunk_wf_new name) eq_refl) as H.
  change (0 <? number_size (new_chunk name))%nat with false in H.
  simpl in H. fold ns rest c in H.
  pose proof (numeric_run_length false tks) as Hlen. fold ns rest in Hlen.
  destruct rest as [| tk rest'].
  - destruct H as [Hdata Hcat]. split_and!.
    + unfold get_semantics. by rw Hcat.
    + done.
    + apply nil_length_inv, Hcat.
  - destruct H as (Hdec & Hnum & Hcat). split_and!.
    + unfold get_semantics. rw Hcat. simpl.
      by destruct (length ns + S (length rest'))%nat eqn:E; [lia |].
    + apply nil_length_inv, Hnum.
    + done.
Qed.

(** X3: [insert_numeric] on a column fed by the tokenizer.  If the
    column stayed numeric it writes one value per field, in order, each
    the stored number read as [float] and cast, and returns the number of
    fields; if any field made the column categorical it throws
    [logic_error "expected numeric data"]. *)
Theorem insert_numeric_from_fields
    {T : Type} (cast : spec_float → T) (name : string) (tks : list token) :
  let ns := (numeric_run false tks).1 in
  let rest := (numeric_run false tks).2 in
  insert_numeric cast (process_all tks (new_chunk name)) =
    match rest with
    | [] => Ok (map (λ v, cast (number_to_float v)) ns, length tks)
    | _ :: _ => Err (logic_error "expected numeric data")
    end.
Proof.
  intros ns rest.
  pose proof (numeric_phase tks (new_chunk name) (chunk_wf_new name) eq_refl) as H.
  change (0 <? number_size (new_chunk name))%nat with false in H.
  simpl in H. fold ns rest in H.
  pose proof (numeric_run_length false tks) as Hlen. fold ns rest in Hlen.
  unfold insert_numeric. destruct rest as [| tk rest'].
  - destruct H as [Hdata Hcat]. rw Hcat. simpl.
    unfold number_size, Widening.size. rw Hdata. do 2 f_equal.
    simpl in Hlen. lia.
  - destruct H as (_ & _ & Hcat). rw Hcat. simpl.
    by destruct (length ns + S (length rest'))%nat eqn:E; [lia |].
Qed.

(** X4: from a chunk whose two stores are not both in use, [size] after
    any sequence of fields is the size before plus the number of fields,
    and still at most one store is in use; a column fed to a new chunk
    has as many entries as fields were fed. *)
Theorem size_counts_fields (tks : list token) (c : ColBasedChunk) :
  mode_invariant c →
  size (process_all tks c) = (size c + length tks)%nat ∧
  mode_invariant (process_all tks c).
Proof.
  revert c. induction tks as [| tk tks IH]; intros c Hmode; simpl.
  { split; [lia | done]. }
  pose proof (mode_invariant_process tk c Hmode) as Hmode'.
  destruct (IH _ Hmode') as [Hsize Hinv]. split; [| done].
  rw Hsize (size_cases _ Hmode') (size_cases _ Hmode).
  destruct (process_store_sizes tk c Hmode) as [(H0 & H1 & H2) | (H1 & H2)]; lia.
Qed.

Lemma size_counts_fields_example :
  size (process_all [Integer 1; Categorical ""; Categorical "x"; Float f32_one]
          (new_chunk "")) = 4%nat.
Proof.
  pose proof (size_counts_fields
                [Integer 1; Categorical ""; Categorical "x"; Float f32_one]
                (new_chunk "")) as H.
  destruct H as [Hsize _]; [by left |]. exact Hsize.
Defined.

(** ** No unused keys *)

Section KeysUsed.
Implicit Types c : ColBasedChunk.





End KeysUsed.

